(* ===== verification/_CoqProject ===== *)
-Q . S2P
Prelude.v
Markers.v
LabelTable.v
Occurrences.v
Labels.v
Cleaning.v
