(* ===== verification/Prelude.v ===== *)
(** * Marker labels of the text-cleaning accelerator: a verification library

    ** The program

    [src/deep_learning/dl_manager/accelerator/src/text_cleaning/markers.rs]
    declares the closed enumeration [Marker] of the categories of text that
    the text-cleaning stage replaces by a placeholder (file paths, log
    output, tracebacks, links, version numbers, ...) and two operations on
    it: [Marker::all_markers], which returns a vector of markers, and
    [Marker::string_marker], which returns the placeholder text (the label)
    of a marker.  There is no state: both operations are pure and total, and
    neither calls the other.  The cleaning pipeline that calls them is not
    among the sources.

    ** The files, in dependency order

    - [Prelude] (this file): what the other files share.  A Rust [String] is
      a sequence of bytes; it is modelled as a Rocq [string], a sequence of
      8-bit characters (every label is ASCII, so bytes and characters
      coincide).  [chars] views a string as a list so that stdpp's list
      lemmas apply; [str_prefix], [str_suffix] and [str_infix] are the
      prefix, suffix and contiguous-substring relations, each with a
      decision procedure; [strip_prefix] removes a known prefix; [tails]
      lists the proper ends of a string; [concat_str] concatenates;
      [is_upper], [not_upper], [is_label_char], [to_lower] and [str_lower]
      classify and
      lower-case ASCII characters.  The lemmas on cutting a concatenation in
      two ways ([str_app_eq_inv], [str_prefix_app_inv]) carry the proofs
      about texts.  The tactic [finite_decide] closes a decidable statement
      quantified over finite types by evaluating its decision procedure; the
      hint and rewrite database is [strs]; the notations live in
      [str_scope].
    - [Markers]: the data and the two operations, translated line by line:
      the type [Marker] (markers.rs lines 1-29, the 27 variants in the order
      of declaration), [all_markers] (lines 32-34, the empty vector) and
      [string_marker] (lines 36-66, one arm per variant).  The Rust type
      derives no trait; decidable equality, the list [variants] and the
      [Finite] instance are proof devices of the model and correspond to no
      code.  Theorem: however the markers are listed, there are 27 of them.
    - [LabelTable]: the contract between a table of labels and the code that
      writes labels into text, as the class [LabelTable]: a total function
      [label] on a finite type, whose labels are non-empty and of which none
      is a prefix of another.  Proved against the class alone: [label] is
      injective; the reference consumer [encode] (the labels of a list, one
      after the other) and [decode] (split such a text back, by fuel) are
      inverse to each other.
    - [Occurrences]: where a label can be found in a text into which
      labels were written.  A text is a list of pieces, each a label or a
      stretch of plain text, where a test [plain] says which characters are
      plain.  [synchronizing] is a decidable condition on a table (the first
      character of every label is not plain; every proper end of a label is
      compared with every label); for a table that meets it,
      [occurrence_mixed] shows that a label is found in such a text only
      where a label of the text ends, for texts of any length.
      [occurrence] is the case of a text of labels alone.
    - [Labels]: the properties of [string_marker].  Labels are pairwise
      distinct, prefix-free, between 4 and 26 characters long, made of
      upper-case letters and (for [IPAddress] only) a space; five labels end
      the label of another marker and no other label occurs inside another;
      no label occurs in a lower-cased text; split at white space a label
      is one word, except that of [IPAddress].  The instance
      [marker_label_table] shows that [string_marker] implements the
      [LabelTable] contract, and [markers_synchronizing] that the table is
      synchronizing when the plain characters are those that are no
      upper-case letters ([not_upper]).
    - [Cleaning]: the reference consumer at the marker table: [render] and
      [split_labels] are [encode] and [decode] for markers, and [cleaned]
      is a text made of pieces without upper-case letters and of labels.  A
      text of labels splits back into its markers, in one way only, and the
      label of a marker is found in a cleaned text only where it was written
      or where one of the five longer labels that end with it was written.

    ** What is code and what is not

    Only [Marker], [all_markers] and [string_marker] translate source
    lines.  [encode], [decode], [render], [split_labels], [cleaned], the
    inverse lookup [marker_of_string], [markers_of_words] and [str_lower]
    model no code of
    the repository: they are the vocabulary in which the properties of the
    label table are stated (what a piece of code that writes labels into a
    text, or searches a text for them, can rely on).  Every theorem listed
    below is a statement about [string_marker] or [Marker] that fails when
    the table is changed accordingly.

    ** What the theorems show, by group

    - The table: [Labels.string_marker_inj], [Labels.string_marker_prefix_free]
      (the central law), [Labels.string_marker_length],
      [Labels.string_marker_charset], [Labels.string_marker_space],
      [Labels.string_marker_infix].
    - The type: [Markers.Marker_enumerations].
    - Contract and refinement: [LabelTable.LabelTable] is the abstract
      specification, [Labels.marker_label_table] the proof that the code
      meets it.
    - Texts of labels: [Cleaning.split_labels_render] (round trip),
      [Cleaning.render_inj] (unique decodability).
    - Labels in other text: [Cleaning.label_in_cleaned] (in a text of
      labels and pieces without upper-case letters, no occurrence of a label
      begins outside a label, straddles two labels or leaves a label),
      [Labels.string_marker_not_in_lower],
      [Labels.markers_of_words_string_marker].

    ** Bounds and fuel

    [decode] recurses on a fuel argument because the rest of the text after
    a label is not a structural subterm.  Every label is non-empty, so each
    step consumes at least one character: fuel equal to the length of the
    text always suffices, and [decode] passes exactly that
    ([LabelTable.decode_fuel_irrel]); the round trip is stated for [decode]
    itself, so it is a statement of total correctness.  [begins_text] of
    [Occurrences] is bounded in the same way; only its completeness is
    needed and proved.  Nothing else is bounded: the enumeration is finite
    and the statements over it are evaluated in the kernel.

    ** What the model shows about the code and its specification

    - [all_markers] returns the empty vector, although its name and the
      specification say it returns every variant.  This is read off line 33;
      no theorem is needed or claimed for it.
    - The enumeration has 27 variants; the specification says 26.
    - One label contains a space, and all labels are upper-case; the
      specification speaks of two irregular labels.
    - Five labels end a longer label, so searching a text for a label as a
      substring is ambiguous for them; the doubled letters of ["LLLOG"] and
      ["TTTRACEBACK"] are what keeps these two labels out of the others.
    - The label ["IP ADDRESS"] does not survive splitting at white space.
    - No theorem fixes which label belongs to which marker beyond the
      structure above: exchanging the labels of two markers that play no
      special role leaves every statement true.  Fixing the assignment would
      mean restating the table.

    ** Not modelled

    Ownership and allocation ([&self], the owned [String] made by [into()])
    have no effect on the values and are erased.  The cleaning pipeline,
    configuration and I/O are absent from the sources. *)

From Stdlib Require Import Ascii String.
From stdpp Require Export base tactics list strings finite.

(** This file: strings as character lists, prefix and substring relations with
    decision procedures, prefix stripping, concatenation, character classes,
    and the automation shared by the development. *)

Declare Scope str_scope.
Delimit Scope str_scope with str.

(** ** Strings as lists of characters *)

Definition chars (s : string) : list ascii := list_ascii_of_string s.
Definition unchars (l : list ascii) : string := string_of_list_ascii l.

Fixpoint concat_str (ss : list string) : string :=
  match ss with
  | [] => ""
  | s :: ss => s +:+ concat_str ss
  end.

(** ** Prefixes *)

Definition str_prefix (s t : string) : Prop := chars s `prefix_of` chars t.
Definition str_suffix (s t : string) : Prop := chars s `suffix_of` chars t.

(** [strip_prefix p s] is the rest of [s] after its prefix [p], if [p] is a
    prefix of [s]. *)
Fixpoint strip_prefix (p s : string) : option string :=
  match p, s with
  | EmptyString, _ => Some s
  | String _ _, EmptyString => None
  | String a p, String b s => if decide (a = b) then strip_prefix p s else None
  end.

(** The proper suffixes of [s], longest first, the empty one included. *)
Fixpoint tails (s : string) : list string :=
  match s with
  | EmptyString => []
  | String _ s => s :: tails s
  end.

(** ** Contiguous substrings *)

Definition infix {A} (l k : list A) : Prop := ∃ k1 k2, k = k1 ++ l ++ k2.

Fixpoint infixb `{EqDecision A} (l k : list A) : bool :=
  bool_decide (l `prefix_of` k) ||
  match k with
  | [] => false
  | _ :: k => infixb l k
  end.

Definition str_infix (s t : string) : Prop := infix (chars s) (chars t).

(** ** Character classes *)

Definition is_upper (c : ascii) : bool :=
  (65 <=? nat_of_ascii c) && (nat_of_ascii c <=? 90).

Definition not_upper (c : ascii) : bool := negb (is_upper c).

Definition space : ascii := " "%char.

Definition is_label_char (c : ascii) : bool := is_upper c || bool_decide (c = space).

Definition str_forallb (p : ascii → bool) (s : string) : bool := forallb p (chars s).

(** ASCII lower-casing, as Rust's [to_ascii_lowercase]: the upper-case letters
    move up by 32, every other character stays. *)
Definition to_lower (c : ascii) : ascii :=
  if is_upper c then ascii_of_nat (nat_of_ascii c + 32) else c.

Definition str_lower (s : string) : string := unchars (to_lower <$> chars s).

Infix "`str_prefix_of`" := str_prefix (at level 70) : str_scope.
Infix "`str_suffix_of`" := str_suffix (at level 70) : str_scope.
Infix "`str_infix_of`" := str_infix (at level 70) : str_scope.
Infix "`infix_of`" := infix (at level 70) : str_scope.
Open Scope str_scope.

(** ** Automation *)

(** Closes a goal that is decidable by evaluating its decision procedure;
    meant for statements quantified over finite types. *)
Ltac finite_decide := apply (bool_decide_unpack _); vm_compute; exact I.

Create HintDb strs discriminated.
Create Rewrite HintDb strs.

(** ** Lemmas on [chars] *)

Lemma chars_app s t : chars (s +:+ t) = chars s ++ chars t.
Proof.
  induction s as [|a s IH]; [done|].
  change (a :: chars (s +:+ t) = a :: chars s ++ chars t). by rewrite IH.
Qed.

Lemma unchars_chars s : unchars (chars s) = s.
Proof. apply string_of_list_ascii_of_string. Qed.

Lemma chars_unchars l : chars (unchars l) = l.
Proof. apply list_ascii_of_string_of_list_ascii. Qed.

#[export] Instance chars_inj : Inj (=) (=) chars.
Proof. intros s t E. by rewrite <-(unchars_chars s), E, unchars_chars. Qed.

Lemma length_chars s : length (chars s) = String.length s.
Proof. induction s as [|a s IH]; [done|]. cbn. by f_equal. Qed.

Lemma chars_nil s : chars s = [] ↔ s = "".
Proof. by destruct s. Qed.

Lemma unchars_app l k : unchars (l ++ k) = unchars l +:+ unchars k.
Proof. apply (inj chars). by rewrite chars_app, !chars_unchars. Qed.

#[export] Hint Rewrite chars_app chars_unchars unchars_chars length_chars : strs.

(** ** Prefixes and [strip_prefix] *)

#[export] Instance str_prefix_dec : RelDecision str_prefix.
Proof. intros s t. unfold str_prefix. apply _. Defined.

#[export] Instance str_suffix_dec : RelDecision str_suffix.
Proof. intros s t. unfold str_suffix. apply _. Defined.

#[export] Instance str_prefix_po : PartialOrder str_prefix.
Proof.
  unfold str_prefix. split; [split|].
  - by intros s.
  - intros s t u ??. by etrans.
  - intros s t ??. apply (inj chars). by apply (anti_symm prefix).
Qed.

Lemma str_prefix_app_iff s t : s `str_prefix_of` t ↔ ∃ u, t = s +:+ u.
Proof.
  unfold str_prefix. split.
  - intros [k Hk]. exists (unchars k). apply (inj chars).
    by rewrite chars_app, chars_unchars.
  - intros [u ->]. exists (chars u). apply chars_app.
Qed.

Lemma str_prefix_app_r s u : s `str_prefix_of` s +:+ u.
Proof. apply str_prefix_app_iff. by exists u. Qed.

Lemma str_prefix_length s t : s `str_prefix_of` t → String.length s ≤ String.length t.
Proof. rewrite <-!length_chars. apply prefix_length. Qed.

(** Two prefixes of the same text are comparable. *)
Lemma str_prefix_weak_total s t u :
  s `str_prefix_of` u → t `str_prefix_of` u → s `str_prefix_of` t ∨ t `str_prefix_of` s.
Proof. apply prefix_weak_total. Qed.

Lemma strip_prefix_Some p s r : strip_prefix p s = Some r ↔ s = p +:+ r.
Proof.
  revert s. induction p as [|a p IH]; intros s; cbn.
  - change ("" +:+ r) with r. split; congruence.
  - change (String a p +:+ r) with (String a (p +:+ r)).
    destruct s as [|b s]; [done|]. case_decide as Hab.
    + subst b. rewrite IH. split; [by intros ->|by intros [= ->]].
    + split; [done|intros [= ? _]; done].
Qed.

Lemma strip_prefix_app p r : strip_prefix p (p +:+ r) = Some r.
Proof. by apply strip_prefix_Some. Qed.

Lemma strip_prefix_is_Some p s : is_Some (strip_prefix p s) ↔ p `str_prefix_of` s.
Proof.
  rewrite str_prefix_app_iff. unfold is_Some.
  split; intros [r Hr]; exists r; by apply strip_prefix_Some.
Qed.

Lemma strip_prefix_None p s : strip_prefix p s = None ↔ ¬ p `str_prefix_of` s.
Proof. by rewrite <-strip_prefix_is_Some, eq_None_not_Some. Qed.

(** What [strip_prefix] returns is shorter by exactly the prefix. *)
Lemma strip_prefix_length p s r :
  strip_prefix p s = Some r → String.length s = String.length p + String.length r.
Proof.
  intros ->%strip_prefix_Some. by rewrite <-!length_chars, chars_app, length_app.
Qed.

(** ** Splitting concatenations *)

Lemma str_app_empty_l s : "" +:+ s = s.
Proof. done. Qed.

Lemma str_app_empty_r s : s +:+ "" = s.
Proof. apply (inj chars). by rewrite chars_app, app_nil_r. Qed.

Lemma str_app_assoc s t u : s +:+ t +:+ u = (s +:+ t) +:+ u.
Proof. apply (inj chars). by rewrite !chars_app, (assoc_L (++)). Qed.

Lemma str_app_id_r s r : s +:+ r = s → r = "".
Proof. intros E. apply (inj (String.app s)). by rewrite E, str_app_empty_r. Qed.

Lemma str_app_id_l s p : p +:+ s = s → p = "".
Proof.
  intros E%(f_equal String.length).
  rewrite <-!length_chars, chars_app, length_app in E.
  destruct p; [done|cbn in E; lia].
Qed.

Lemma str_app_eq_empty s t : s +:+ t = "" → s = "" ∧ t = "".
Proof. destruct s; [intros E; split; [done|exact E]|done]. Qed.

(** Two ways of cutting the same text: one first part starts the other. *)
Lemma str_app_eq_inv s1 t1 s2 t2 :
  s1 +:+ t1 = s2 +:+ t2 →
  (∃ w, s1 = s2 +:+ w ∧ t2 = w +:+ t1) ∨ (∃ w, s2 = s1 +:+ w ∧ t1 = w +:+ t2).
Proof.
  intros E%(f_equal chars). rewrite !chars_app in E.
  apply app_eq_inv in E as [(k & E1 & E2)|(k & E1 & E2)]; [left|right];
    exists (unchars k); split; apply (inj chars); by rewrite chars_app, chars_unchars.
Qed.

(** A beginning of a concatenation lies in the first part or goes past it. *)
Lemma str_prefix_app_inv w s t :
  w `str_prefix_of` s +:+ t → w `str_prefix_of` s ∨ ∃ w', w = s +:+ w' ∧ w' `str_prefix_of` t.
Proof.
  intros [r E]%str_prefix_app_iff. symmetry in E.
  apply str_app_eq_inv in E as [(k & -> & ->)|(k & -> & ->)].
  - right. exists k. split; [done|apply str_prefix_app_r].
  - left. apply str_prefix_app_r.
Qed.

Lemma elem_of_tails t s : t ∈ tails s ↔ ∃ u, u ≠ "" ∧ s = u +:+ t.
Proof.
  induction s as [|a s IH]; cbn.
  - split; [by intros ?%elem_of_nil|]. by intros (u & Hu & [-> _]%eq_sym%str_app_eq_empty).
  - rewrite elem_of_cons, IH. split.
    + intros [->|(u & Hu & ->)]; [by exists (String a "")|by exists (String a u)].
    + intros ([|b u] & Hu & E); [done|]. injection E as -> ->.
      destruct (decide (u = "")) as [->|]; [by left|right; by exists u].
Qed.

#[export] Hint Rewrite strip_prefix_app str_app_empty_r : strs.
#[export] Hint Resolve str_prefix_app_r : strs.

(** ** Contiguous substrings *)

Section infix.
Context {A : Type}.
Implicit Types l k : list A.

Lemma infix_prefix l k : l `prefix_of` k → l `infix_of` k.
Proof. intros [k2 ->]. by exists [], k2. Qed.

Lemma infix_suffix l k : l `suffix_of` k → l `infix_of` k.
Proof. intros [k1 ->]. exists k1, []. by rewrite app_nil_r. Qed.

Lemma infix_cons x l k : l `infix_of` k → l `infix_of` x :: k.
Proof. intros (k1 & k2 & ->). by exists (x :: k1), k2. Qed.

Lemma infix_cons_inv x l k : l `infix_of` x :: k → l `prefix_of` x :: k ∨ l `infix_of` k.
Proof.
  intros ([|y k1] & k2 & E); simplify_eq/=.
  - left. by exists k2.
  - right. by exists k1, k2.
Qed.

Lemma infix_nil_inv l : l `infix_of` [] → l = [].
Proof.
  intros (k1 & k2 & E). symmetry in E.
  by apply app_eq_nil in E as [_ [? _]%app_eq_nil].
Qed.

Lemma infix_length l k : l `infix_of` k → length l ≤ length k.
Proof. intros (k1 & k2 & ->). rewrite !length_app. lia. Qed.

#[export] Instance infix_preorder : PreOrder (@infix A).
Proof.
  split.
  - intros l. by apply infix_prefix.
  - intros l k m (k1 & k2 & ->) (m1 & m2 & ->).
    exists (m1 ++ k1), (k2 ++ m2). by rewrite <-!(assoc_L (++)).
Qed.

Context `{!EqDecision A}.

Lemma infixb_spec l k : infixb l k = true ↔ l `infix_of` k.
Proof.
  induction k as [|x k IH]; cbn.
  - rewrite orb_false_r, bool_decide_eq_true. split; [apply infix_prefix|].
    by intros ->%infix_nil_inv.
  - rewrite orb_true_iff, bool_decide_eq_true, IH.
    split; [intros [?|?]; auto using infix_prefix, infix_cons|apply infix_cons_inv].
Qed.

#[export] Instance infix_dec : RelDecision (@infix A).
Proof.
  refine (λ l k, cast_if (decide (infixb l k = true))); by rewrite <-infixb_spec.
Defined.
End infix.

#[export] Instance str_infix_dec : RelDecision str_infix.
Proof. intros s t. unfold str_infix. apply _. Defined.

Lemma str_infix_iff s t : s `str_infix_of` t ↔ ∃ u v, t = u +:+ s +:+ v.
Proof.
  unfold str_infix. split.
  - intros (k1 & k2 & E). exists (unchars k1), (unchars k2). apply (inj chars).
    by rewrite !chars_app, !chars_unchars.
  - intros (u & v & ->). exists (chars u), (chars v). by rewrite !chars_app.
Qed.

Lemma str_prefix_infix s t : s `str_prefix_of` t → s `str_infix_of` t.
Proof. apply infix_prefix. Qed.

Lemma str_suffix_infix s t : s `str_suffix_of` t → s `str_infix_of` t.
Proof. apply infix_suffix. Qed.

Lemma str_infix_length s t : s `str_infix_of` t → String.length s ≤ String.length t.
Proof. rewrite <-!length_chars. apply infix_length. Qed.

(** ** Concatenation *)

Lemma chars_concat_str ss : chars (concat_str ss) = concat (chars <$> ss).
Proof. induction ss as [|s ss IH]; [done|]. cbn. by rewrite chars_app, IH. Qed.

Lemma concat_str_app ss ts : concat_str (ss ++ ts) = concat_str ss +:+ concat_str ts.
Proof.
  apply (inj chars). by rewrite chars_app, !chars_concat_str, fmap_app, concat_app.
Qed.

Lemma length_app_str s t : String.length (s +:+ t) = String.length s + String.length t.
Proof. by rewrite <-!length_chars, chars_app, length_app. Qed.

Lemma length_concat_str ss :
  String.length (concat_str ss) = sum_list (String.length <$> ss).
Proof. induction ss as [|s ss IH]; [done|]. cbn. by rewrite length_app_str, IH. Qed.

(** ** Character classes *)

Lemma str_forallb_Forall p s :
  str_forallb p s = true ↔ Forall (λ c, p c = true) (chars s).
Proof. unfold str_forallb. by rewrite forallb_forall, Forall_forall; setoid_rewrite list_elem_of_In. Qed.

Lemma str_forallb_app p s t :
  str_forallb p (s +:+ t) = str_forallb p s && str_forallb p t.
Proof. unfold str_forallb. by rewrite chars_app, forallb_app. Qed.

Lemma is_upper_not_space c : is_upper c = true → c ≠ space.
Proof. by intros Hc ->. Qed.

(** Label characters are ASCII: one byte each in UTF-8. *)
Lemma is_label_char_ascii c : is_label_char c = true → nat_of_ascii c < 128.
Proof.
  unfold is_label_char, is_upper.
  intros [[_ ?%Nat.leb_le]%andb_true_iff| ->%bool_decide_eq_true]%orb_true_iff; [lia|].
  by apply Nat.ltb_lt.
Qed.

Lemma str_lower_not_upper s : str_forallb not_upper (str_lower s) = true.
Proof.
  unfold str_forallb, str_lower. rewrite chars_unchars, forallb_forall.
  intros c (d & <- & _)%in_map_iff. unfold not_upper, to_lower.
  by destruct d as [[] [] [] [] [] [] [] []].
Qed.

Lemma to_lower_not_upper c : is_upper (to_lower c) = false.
Proof. by destruct c as [[] [] [] [] [] [] [] []]. Qed.

Lemma to_lower_idemp c : to_lower (to_lower c) = to_lower c.
Proof. unfold to_lower at 1. by rewrite to_lower_not_upper. Qed.

Lemma chars_str_lower s : chars (str_lower s) = to_lower <$> chars s.
Proof. apply chars_unchars. Qed.

Lemma str_lower_no_upper s : Forall (λ c, is_upper c = false) (chars (str_lower s)).
Proof.
  rewrite chars_str_lower. apply Forall_fmap, Forall_true. intros c.
  apply to_lower_not_upper.
Qed.

Lemma length_str_lower s : String.length (str_lower s) = String.length s.
Proof. by rewrite <-!length_chars, chars_str_lower, length_fmap. Qed.

(** A text with an upper-case letter does not occur in a lower-cased text. *)
Lemma str_infix_lower_inv s t :
  s `str_infix_of` str_lower t → Forall (λ c, is_upper c = false) (chars s).
Proof.
  intros (k1 & k2 & E). pose proof (str_lower_no_upper t) as Ht.
  rewrite E in Ht. by apply Forall_app in Ht as [_ [? _]%Forall_app].
Qed.

#[export] Hint Rewrite chars_concat_str concat_str_app length_app_str
  length_concat_str str_forallb_app chars_str_lower length_str_lower : strs.
#[export] Hint Resolve str_prefix_infix str_suffix_infix : strs.
