(* ===== verification/Markers.v ===== *)
(** The marker enumeration and its two operations, as declared in
    [src/deep_learning/dl_manager/accelerator/src/text_cleaning/markers.rs]:
    the type [Marker] (lines 1-29), [all_markers] (lines 32-34) and
    [string_marker] (lines 36-66).  Decidable equality, the list [variants]
    and the [Finite] instance are devices of the model: the Rust type derives
    no trait and has no enumeration of its own. *)

From S2P Require Import Prelude.

(** ** The data *)

(** [pub enum Marker], the variants in the order of declaration. *)
Inductive Marker : Set :=
  | Attachment
  | ClassName
  | CloudInstanceSpec
  | Date
  | FilePath
  | FormattedLogging
  | FormattedTraceback
  | GithubLink
  | ImageAttachment
  | InlineCode
  | IssueLink
  | IPAddress
  | Log
  | MethodOrVariableName
  | NoFormatBlock
  | PackageName
  | SimpleClassName
  | SimpleMethodOrVariableName
  | StorageSize
  | StructuredCodeBlock
  | TechnologyName
  | Traceback
  | UnformattedLog
  | UnformattedTraceback
  | UserProfileLink
  | VersionNumber
  | WebLink.

(** ** The operations *)

(** [pub fn all_markers() -> Vec<Marker>]: the body is [vec![]]. *)
Definition all_markers : list Marker := [].

(** [pub fn string_marker(&self) -> String]: one arm per variant; [into()]
    turns the literal into an owned string with the same bytes. *)
Definition string_marker (self : Marker) : string :=
  match self with
  | Attachment => "ATTACHMENT"
  | ClassName => "CLASSNAME"
  | CloudInstanceSpec => "CLOUDINSTANCE"
  | Date => "DATE"
  | FilePath => "FILEPATH"
  | FormattedLogging => "FORMATTEDLOGGINGOUTPUT"
  | FormattedTraceback => "FORMATTEDTRACEBACK"
  | GithubLink => "GITHUBLINK"
  | ImageAttachment => "IMAGEATTACHMENT"
  | InlineCode => "INLINECODESAMPLE"
  | IssueLink => "ISSUELINK"
  | IPAddress => "IP ADDRESS"
  | Log => "LLLOG"
  | MethodOrVariableName => "METHODORVARIABLENAME"
  | NoFormatBlock => "NOFORMATBLOCK"
  | PackageName => "PACKAGE"
  | SimpleClassName => "SIMPLECLASSNAME"
  | SimpleMethodOrVariableName => "SIMPLEMETHODORVARIABLENAME"
  | StorageSize => "STORAGESIZE"
  | StructuredCodeBlock => "STRUCTUREDCODEBLOCK"
  | TechnologyName => "TECHNOLOGYNAMES"
  | Traceback => "TTTRACEBACK"
  | UnformattedLog => "UNFORMATTEDLOGGINGOUTPUT"
  | UnformattedTraceback => "UNFORMATTEDTRACEBACK"
  | UserProfileLink => "USERPROFILELINK"
  | VersionNumber => "VERSIONNUMBER"
  | WebLink => "WEBLINK"
  end.

(** ** The enumeration of the model *)

(** Every variant, in the order of declaration: what a complete
    [all_markers] would return. *)
Definition variants : list Marker :=
  [ Attachment; ClassName; CloudInstanceSpec; Date; FilePath; FormattedLogging;
    FormattedTraceback; GithubLink; ImageAttachment; InlineCode; IssueLink;
    IPAddress; Log; MethodOrVariableName; NoFormatBlock; PackageName;
    SimpleClassName; SimpleMethodOrVariableName; StorageSize;
    StructuredCodeBlock; TechnologyName; Traceback; UnformattedLog;
    UnformattedTraceback; UserProfileLink; VersionNumber; WebLink ].

#[export] Instance Marker_eq_dec : EqDecision Marker.
Proof. solve_decision. Defined.

Lemma NoDup_variants : NoDup variants.
Proof. finite_decide. Qed.

Lemma elem_of_variants m : m ∈ variants.
Proof. destruct m; finite_decide. Qed.

#[export] Instance Marker_finite : Finite Marker :=
  {| enum := variants; NoDup_enum := NoDup_variants; elem_of_enum := elem_of_variants |}.

#[export] Instance Marker_inhabited : Inhabited Marker := populate Attachment.

(** ** Theorems *)

(** [all_markers] is not an enumeration of the type. *)
Lemma all_markers_not_complete : ¬ (∀ m, m ∈ all_markers).
Proof. intros H. by apply (not_elem_of_nil Attachment), H. Qed.

(** C12: the type has exactly 27 values, whatever list is used to enumerate
    them: a list of markers without repetition has at most 27 elements, and a
    list that contains every marker has at least 27. *)
Theorem Marker_enumerations :
  (∀ l : list Marker, NoDup l → length l ≤ 27) ∧
  (∀ l : list Marker, (∀ m, m ∈ l) → 27 ≤ length l).
Proof.
  change 27 with (length (enum Marker)). split; intros l Hl.
  - apply (submseteq_length l (enum Marker)), NoDup_submseteq; [done|].
    intros m _. apply elem_of_enum.
  - apply (submseteq_length (enum Marker) l), NoDup_submseteq; [apply NoDup_enum|done].
Qed.
