(* ===== verification/LabelTable.v ===== *)
(** The contract of a label table, and what a consumer can rely on.

    [LabelTable A] is the interface between a table of placeholder labels
    and the code that writes labels into text: a total function [label] on a
    finite type of categories, whose labels are non-empty and of which none
    is a prefix of another.  The section [consumer] is proved against the
    interface alone: [encode] writes the labels of a list of categories one
    after the other, [decode] reads such a text back, and the two are inverse
    to each other.  [Labels] shows that [Markers.string_marker] implements
    the interface.

    [encode] and [decode] model no source code; they are the reference
    consumer that gives the contract its meaning. *)

From S2P Require Import Prelude.

(** ** The interface *)

Class LabelTable (A : Type) `{Finite A} := {
  label : A → string;
  label_nonempty a : label a ≠ "";
  label_prefix_free a b : label a `str_prefix_of` label b → a = b;
}.
Arguments label {A _ _ _} a : assert.

Section consumer.
Context `{LabelTable A}.
Implicit Types (a b : A) (xs ys : list A) (s r : string) (n : nat).

(** ** The reference consumer *)

(** The labels of [xs], one after the other. *)
Definition encode xs : string := concat_str (label <$> xs).

(** The first category of [cands] whose label starts [s], and the rest of [s]. *)
Fixpoint first_label (cands : list A) s : option (A * string) :=
  match cands with
  | [] => None
  | a :: cands =>
      match strip_prefix (label a) s with
      | Some r => Some (a, r)
      | None => first_label cands s
      end
  end.

Definition take_label s : option (A * string) := first_label (enum A) s.

(** Splits [s] into labels; [n] bounds the number of labels read. *)
Fixpoint decode_fuel n s : option (list A) :=
  match s, n with
  | EmptyString, _ => Some []
  | _, 0 => None
  | _, S n => '(a, r) ← take_label s; (a ::.) <$> decode_fuel n r
  end.

Definition decode s : option (list A) := decode_fuel (String.length s) s.

(** ** Consequences of the laws *)

#[export] Instance label_inj : Inj (=) (=) (@label A _ _ _).
Proof. intros a b E. apply label_prefix_free. by rewrite E. Qed.

Lemma label_length_pos a : 0 < String.length (label a).
Proof. pose proof (label_nonempty a). destruct (label a); [done|cbn; lia]. Qed.

(** Two labels that start the same text are the same label. *)
Lemma label_prefix_unique a b s :
  label a `str_prefix_of` s → label b `str_prefix_of` s → a = b.
Proof.
  intros Ha Hb.
  destruct (str_prefix_weak_total _ _ _ Ha Hb); [|symmetry]; by apply label_prefix_free.
Qed.

Lemma label_app_inv a b r r' : label a +:+ r = label b +:+ r' → a = b ∧ r = r'.
Proof.
  intros E. assert (a = b) as <-.
  { apply (label_prefix_unique a b (label a +:+ r)); [|rewrite E]; apply str_prefix_app_r. }
  split; [done|]. by apply (inj (String.app (label a))).
Qed.

(** ** [encode] *)

Lemma encode_nil : encode [] = "".
Proof. done. Qed.

Lemma encode_cons a xs : encode (a :: xs) = label a +:+ encode xs.
Proof. done. Qed.

Lemma encode_app xs ys : encode (xs ++ ys) = encode xs +:+ encode ys.
Proof. unfold encode. by rewrite fmap_app, concat_str_app. Qed.

Lemma length_encode xs :
  String.length (encode xs) = sum_list ((String.length ∘ label) <$> xs).
Proof. unfold encode. by rewrite length_concat_str, <-list_fmap_compose. Qed.

Lemma encode_eq_empty xs : encode xs = "" → xs = [].
Proof.
  destruct xs as [|a xs]; [done|]. rewrite encode_cons. intros E.
  pose proof (label_length_pos a). apply (f_equal String.length) in E.
  rewrite length_app_str in E. cbn in E. lia.
Qed.

(** A text never has fewer characters than labels. *)
Lemma length_le_encode xs : length xs ≤ String.length (encode xs).
Proof.
  induction xs as [|a xs IH]; [done|].
  rewrite encode_cons, length_app_str. pose proof (label_length_pos a). cbn. lia.
Qed.

(** ** [take_label] *)

Lemma first_label_Some cands s a r :
  first_label cands s = Some (a, r) → a ∈ cands ∧ s = label a +:+ r.
Proof.
  induction cands as [|b cands IH]; [done|]. cbn.
  destruct (strip_prefix (label b) s) as [r'|] eqn:E.
  - intros [= -> ->]. split; [left|by apply strip_prefix_Some].
  - intros [??]%IH. split; [by right|done].
Qed.

Lemma first_label_app cands a r :
  a ∈ cands → first_label cands (label a +:+ r) = Some (a, r).
Proof.
  induction cands as [|b cands IH]; [by intros ?%elem_of_nil|]. cbn.
  destruct (strip_prefix (label b) (label a +:+ r)) as [r'|] eqn:E.
  - intros _. apply strip_prefix_Some, label_app_inv in E as [-> ->]. done.
  - intros [->|?]%elem_of_cons; [|by apply IH]. by rewrite strip_prefix_app in E.
Qed.

(** The answer does not depend on the order in which the candidates are
    tried, so not on the enumeration chosen for the type. *)
Lemma first_label_ext cands cands' s :
  (∀ a, a ∈ cands ↔ a ∈ cands') → first_label cands s = first_label cands' s.
Proof.
  intros Hc. destruct (first_label cands s) as [[a r]|] eqn:E.
  - apply first_label_Some in E as [Ha ->]. symmetry. by apply first_label_app, Hc.
  - destruct (first_label cands' s) as [[b r]|] eqn:E'; [|done].
    apply first_label_Some in E' as [Hb ->]. apply Hc in Hb.
    by rewrite (first_label_app _ _ _ Hb) in E.
Qed.

Lemma take_label_Some s a r : take_label s = Some (a, r) ↔ s = label a +:+ r.
Proof.
  split; [by intros [_ ?]%first_label_Some|].
  intros ->. apply first_label_app, elem_of_enum.
Qed.

Lemma take_label_app a r : take_label (label a +:+ r) = Some (a, r).
Proof. by apply take_label_Some. Qed.

Lemma take_label_None s : take_label s = None ↔ ∀ a, ¬ label a `str_prefix_of` s.
Proof.
  split.
  - intros E a [r ->]%str_prefix_app_iff. by rewrite take_label_app in E.
  - intros Hs. destruct (take_label s) as [[a r]|] eqn:E; [|done].
    apply take_label_Some in E as ->. destruct (Hs a). apply str_prefix_app_r.
Qed.

(** What [take_label] leaves is strictly shorter than what it was given. *)
Lemma take_label_length s a r :
  take_label s = Some (a, r) → String.length r < String.length s.
Proof.
  intros ->%take_label_Some. rewrite length_app_str.
  pose proof (label_length_pos a). lia.
Qed.

(** ** [decode] *)

Lemma decode_fuel_empty n : decode_fuel n "" = Some [].
Proof. by destruct n. Qed.

Lemma decode_fuel_S n s :
  s ≠ "" → decode_fuel (S n) s = '(a, r) ← take_label s; (a ::.) <$> decode_fuel n r.
Proof. by destruct s. Qed.

Lemma decode_fuel_0 s : s ≠ "" → decode_fuel 0 s = None.
Proof. by destruct s. Qed.

Lemma label_app_nonempty a r : label a +:+ r ≠ "".
Proof.
  intros E%(f_equal String.length). rewrite length_app_str in E.
  pose proof (label_length_pos a). cbn in E. lia.
Qed.

(** Completeness: with one unit of fuel per label, the labels of [xs] are
    read back as [xs]. *)
Lemma decode_fuel_encode n xs : length xs ≤ n → decode_fuel n (encode xs) = Some xs.
Proof.
  revert n. induction xs as [|a xs IH]; intros n Hn; [apply decode_fuel_empty|].
  destruct n as [|n]; [cbn in Hn; lia|]. rewrite encode_cons.
  rewrite decode_fuel_S by apply label_app_nonempty.
  rewrite take_label_app. cbn. rewrite IH by (cbn in Hn; lia). done.
Qed.

(** Soundness: whatever [decode_fuel] returns spells the text it was given. *)
Lemma decode_fuel_sound n s xs : decode_fuel n s = Some xs → s = encode xs.
Proof.
  revert s xs. induction n as [|n IH]; intros s xs.
  - destruct s; [by intros [= <-]|done].
  - destruct (decide (s = "")) as [->|Hs]; [by intros [= <-]|].
    rewrite decode_fuel_S by done.
    destruct (take_label s) as [[a r]|] eqn:E; [|done]. cbn.
    destruct (decode_fuel n r) as [ys|] eqn:Er; [|done]. intros [= <-].
    apply take_label_Some in E as ->. by rewrite (IH r ys).
Qed.

(** Fuel: any two amounts that are at least the length of the text give the
    same answer, failures included. *)
Lemma decode_fuel_irrel n m s :
  String.length s ≤ n → String.length s ≤ m → decode_fuel n s = decode_fuel m s.
Proof.
  revert m s. induction n as [|n IH]; intros m s Hn Hm.
  - destruct s; [by rewrite !decode_fuel_empty|cbn in Hn; lia].
  - destruct (decide (s = "")) as [->|Hs]; [by rewrite !decode_fuel_empty|].
    destruct m as [|m]; [destruct s; [done|cbn in Hm; lia]|].
    rewrite !decode_fuel_S by done.
    destruct (take_label s) as [[a r]|] eqn:E; [|done]. cbn.
    apply take_label_length in E. rewrite (IH m r) by lia. done.
Qed.

Lemma decode_fuel_enough n s : String.length s ≤ n → decode_fuel n s = decode s.
Proof. intros Hn. by apply decode_fuel_irrel. Qed.

Lemma decode_encode xs : decode (encode xs) = Some xs.
Proof. apply decode_fuel_encode, length_le_encode. Qed.

Lemma decode_Some s xs : decode s = Some xs ↔ s = encode xs.
Proof. split; [apply decode_fuel_sound|intros ->; apply decode_encode]. Qed.

(** A failure of [decode] is never a lack of fuel: no list spells the text. *)
Lemma decode_None s : decode s = None ↔ ∀ xs, s ≠ encode xs.
Proof.
  split.
  - intros E xs ->. by rewrite decode_encode in E.
  - intros Hs. destruct (decode s) as [xs|] eqn:E; [|done].
    by apply decode_Some, Hs in E.
Qed.

(** Unique decodability: a text is spelled by at most one list. *)
#[export] Instance encode_inj : Inj (=) (=) encode.
Proof. intros xs ys E. apply (inj Some). by rewrite <-!decode_encode, E. Qed.

Lemma decode_app s t xs ys :
  decode s = Some xs → decode t = Some ys → decode (s +:+ t) = Some (xs ++ ys).
Proof. rewrite !decode_Some. intros -> ->. by rewrite encode_app. Qed.

End consumer.

#[export] Hint Rewrite @encode_cons @encode_app @take_label_app @decode_encode : strs.
