(* ===== verification/Occurrences.v ===== *)
(** Where a label can occur in a text into which labels were written.

    A consumer that searches a text for a label as a substring finds every
    place where the characters of the label stand, whether or not a label
    was written there.  This file considers texts that are made of pieces: a
    piece is a label of the table or a stretch of plain text, where the
    plain characters are given by a test [plain] (for the marker table: every
    character that is not an upper-case letter).  For a table that is
    [synchronizing] the theorem [occurrence_mixed] shows that a label is
    found in such a text only at the end of a label that was written: no
    occurrence begins in plain text, straddles two labels or runs from a
    label into plain text.  [occurrence] is the case of a text of labels
    alone ([LabelTable.encode]).

    [synchronizing] is a decidable condition on the table (the first
    character of each label, and each proper end of a label against each
    label), so that for a concrete table it is checked by evaluation; the
    theorems then hold for texts of any length.

    Like [encode], the definitions of this file model no source code. *)

From Stdlib Require Import Ascii String.
From S2P Require Import Prelude LabelTable.

Section occurrences.
Context `{LabelTable A} (plain : ascii → bool).
Implicit Types (a b c : A) (x : string + A) (xs : list (string + A)).
Implicit Types (s t u v w z p r : string) (d e : ascii) (n : nat).

(** ** Definitions *)

(** A piece of text: plain text, or the label of a category. *)
Definition piece_text x : string :=
  match x with inl s => s | inr a => label a end.

(** The pieces one after the other. *)
Definition mixed xs : string := concat_str (piece_text <$> xs).

(** A plain piece has plain characters only. *)
Definition plain_piece x : Prop :=
  match x with inl s => str_forallb plain s = true | inr _ => True end.

(** The label of [a] begins with a character that is not plain. *)
Definition head_marked a : bool :=
  match label a with String c _ => negb (plain c) | EmptyString => false end.

(** [w] is the beginning of a label. *)
Definition starts_label w : bool := bool_decide (∃ b, w `str_prefix_of` label b).

(** [w] may be the beginning of a text of pieces that starts with a label:
    some labels, then the beginning of a label or a plain character.  [n]
    bounds the number of labels. *)
Fixpoint begins_text n w : bool :=
  match w, n with
  | EmptyString, _ => true
  | _, 0 => false
  | String c _, S n =>
      plain c ||
      match take_label w with
      | Some (_, r) => begins_text n r
      | None => starts_label w
      end
  end.

(** The end [t] of a label meets the label of [a] harmlessly: if the label of
    [a] starts [t] it is all of [t], and if [t] starts the label of [a], what
    is left of that label is not the beginning of a text. *)
Definition overlap_ok t a : bool :=
  match strip_prefix (label a) t with
  | Some r => bool_decide (r = "")
  | None =>
      match strip_prefix t (label a) with
      | Some w => negb (begins_text (String.length w) w)
      | None => true
      end
  end.

(** Every label begins with a character that is not plain, and every proper,
    non-empty end of every label meets every label harmlessly. *)
Definition synchronizing : Prop :=
  (∀ a, head_marked a = true) ∧
  (∀ c a, Forall (λ t, t ≠ "" → overlap_ok t a = true) (tails (label c))).

#[export] Instance synchronizing_dec : Decision synchronizing.
Proof. unfold synchronizing. apply _. Defined.

(** ** [mixed] *)

Lemma mixed_cons x xs : mixed (x :: xs) = piece_text x +:+ mixed xs.
Proof. done. Qed.

Lemma mixed_app xs1 xs2 : mixed (xs1 ++ xs2) = mixed xs1 +:+ mixed xs2.
Proof. unfold mixed. by rewrite fmap_app, concat_str_app. Qed.

Lemma mixed_labels (l : list A) : mixed (inr <$> l) = encode l.
Proof. unfold mixed, encode. by rewrite <-list_fmap_compose. Qed.

(** ** First characters *)

Lemma str_cons_app d s t : String d s +:+ t = String d (s +:+ t).
Proof. done. Qed.

Lemma head_marked_inv a :
  head_marked a = true → ∃ d r, label a = String d r ∧ plain d = false.
Proof.
  unfold head_marked. destruct (label a) as [|d r]; [done|].
  intros Hd%negb_true_iff. by exists d, r.
Qed.

Lemma plain_piece_head s u d w :
  str_forallb plain s = true → s = u +:+ String d w → plain d = true.
Proof.
  intros Hs ->. rewrite str_forallb_app in Hs. apply andb_true_iff in Hs as [_ Hs].
  unfold str_forallb in Hs. cbn in Hs. by apply andb_true_iff in Hs as [? _].
Qed.

(** ** [begins_text] accepts every beginning of a text of pieces *)

Lemma begins_text_empty n : begins_text n "" = true.
Proof. by destruct n. Qed.

Lemma str_app_length_le s r : String.length (s +:+ r) ≤ String.length s → r = "".
Proof. rewrite length_app_str. destruct r; [done|cbn; lia]. Qed.

(** The case of a text that begins with the label of [b]. *)
Lemma begins_text_label n w b t :
  (∀ w', String.length w' ≤ n → w' `str_prefix_of` t → begins_text n w' = true) →
  String.length w ≤ S n → w `str_prefix_of` label b +:+ t → begins_text (S n) w = true.
Proof.
  intros IH Hn Hw. destruct w as [|d w0] eqn:Ew; [done|]. rewrite <-Ew in *.
  assert (begins_text (S n) w = plain d ||
    match take_label w with Some (_, r) => begins_text n r | None => starts_label w end)
    as -> by (by rewrite Ew).
  apply orb_true_iff. right.
  apply str_prefix_app_inv in Hw as [Hw|(w' & -> & Hw')].
  - destruct (take_label w) as [[c r]|] eqn:E.
    + apply take_label_Some in E as ->.
      assert (c = b) as ->.
      { apply label_prefix_free. etrans; [apply str_prefix_app_r|done]. }
      apply str_prefix_length, str_app_length_le in Hw as ->. apply begins_text_empty.
    + apply bool_decide_eq_true. by exists b.
  - rewrite take_label_app. apply IH; [|done].
    rewrite length_app_str in Hn. pose proof (label_length_pos b). lia.
Qed.

Lemma begins_text_complete n w xs :
  Forall plain_piece xs → String.length w ≤ n → w `str_prefix_of` mixed xs →
  begins_text n w = true.
Proof.
  revert w xs. induction n as [|n IHn]; intros w xs Hxs Hn Hw.
  { destruct w; [done|cbn in Hn; lia]. }
  induction Hxs as [|x xs Hx Hxs IHxs].
  { apply str_prefix_length in Hw. destruct w; [done|cbn in Hw; lia]. }
  rewrite mixed_cons in Hw. destruct x as [[|e s]|b]; cbn [piece_text] in Hw.
  - by apply IHxs.
  - destruct w as [|d w0]; [done|]. apply str_prefix_app_iff in Hw as [r Hw].
    rewrite !str_cons_app in Hw. injection Hw as -> _.
    cbn. rewrite (plain_piece_head (String d s) "" d s); done.
  - apply (begins_text_label n w b (mixed xs)); [|done..].
    intros w' ??. by apply (IHn w' xs).
Qed.

(** ** What [overlap_ok] excludes *)

Lemma overlap_inner t a z : overlap_ok t a = true → t = label a +:+ z → z = "".
Proof.
  intros Hok ->. unfold overlap_ok in Hok. rewrite strip_prefix_app in Hok.
  by apply bool_decide_eq_true in Hok.
Qed.

Lemma overlap_straddle t a z xs :
  overlap_ok t a = true → label a = t +:+ z → z ≠ "" → Forall plain_piece xs →
  ¬ z `str_prefix_of` mixed xs.
Proof.
  intros Hok Ha Hz Hxs Hpre. unfold overlap_ok in Hok.
  destruct (strip_prefix (label a) t) as [r|] eqn:E.
  - apply strip_prefix_Some in E. subst t. rewrite <-str_app_assoc in Ha.
    symmetry in Ha. by apply str_app_id_r, str_app_eq_empty in Ha as [_ ?].
  - rewrite Ha, strip_prefix_app in Hok.
    by rewrite (begins_text_complete _ z xs) in Hok.
Qed.

Section synchronizing.
Hypothesis Hsync : synchronizing.

Lemma synchronizing_tail c u t a :
  label c = u +:+ t → u ≠ "" → t ≠ "" → overlap_ok t a = true.
Proof.
  intros Hc Hu Ht. pose proof (proj2 Hsync c a) as Hca. rewrite Forall_forall in Hca.
  apply Hca; [|done]. apply elem_of_tails. by exists u.
Qed.

(** No label is found at a place inside a plain piece. *)
Lemma occurrence_in_plain s u w a v t :
  str_forallb plain s = true → s = u +:+ w → w ≠ "" → label a +:+ v ≠ w +:+ t.
Proof.
  intros Hs -> Hw E. destruct w as [|d w]; [done|].
  destruct (head_marked_inv a (proj1 Hsync a)) as (e & r & Ha & He).
  rewrite Ha, !str_cons_app in E. injection E as -> _.
  by rewrite (plain_piece_head _ u d w Hs) in He.
Qed.

(** The label of [a] found at the end [w] of a label of the text is that end
    exactly. *)
Lemma occurrence_in_label c xs u w a v :
  Forall plain_piece xs →
  label c = u +:+ w → w ≠ "" → label a +:+ v = w +:+ mixed xs →
  w = label a ∧ v = mixed xs.
Proof.
  intros Hxs Hc Hw E. apply str_app_eq_inv in E as [(z & Ha & Hx)|(z & Hw' & Hv)].
  - destruct (decide (z = "")) as [->|Hz].
    { by rewrite str_app_empty_r in Ha. }
    exfalso. destruct (decide (u = "")) as [->|Hu].
    + rewrite str_app_empty_l in Hc. subst w.
      assert (c = a) as -> by (apply label_prefix_free; rewrite Ha; apply str_prefix_app_r).
      symmetry in Ha. by apply str_app_id_r in Ha.
    + apply (overlap_straddle w a z xs); [by eapply synchronizing_tail|done..|].
      rewrite Hx. apply str_prefix_app_r.
  - assert (z = "") as ->; [|by rewrite str_app_empty_r in Hw'].
    destruct (decide (u = "")) as [->|Hu].
    + rewrite str_app_empty_l in Hc. subst w.
      assert (a = c) as -> by (apply label_prefix_free; rewrite Hw'; apply str_prefix_app_r).
      symmetry in Hw'. by apply str_app_id_r in Hw'.
    + eapply overlap_inner; [by eapply synchronizing_tail|done].
Qed.

(** In a text of plain pieces and labels, the label of [a] is found only
    where a label [b] of the text ends, and then [b] ends with the label of
    [a]. *)
Theorem occurrence_mixed xs u a v :
  Forall plain_piece xs → mixed xs = u +:+ label a +:+ v →
  ∃ xs1 b xs2 p,
    xs = xs1 ++ inr b :: xs2 ∧ label b = p +:+ label a ∧
    u = mixed xs1 +:+ p ∧ v = mixed xs2.
Proof.
  intros Hxs. revert u. induction Hxs as [|x xs Hx Hxs IH]; intros u E.
  { symmetry in E. apply str_app_eq_empty in E as [_ [E _]%str_app_eq_empty].
    by destruct (label_nonempty a). }
  rewrite mixed_cons in E. apply str_app_eq_inv in E as [(w & Hc & Hr)|(w & Hu & Hr)].
  - destruct (decide (w = "")) as [->|Hw].
    + rewrite str_app_empty_r in Hc.
      destruct (IH "") as (xs1 & b & xs2 & p & -> & Hb & Hp & ->).
      { by rewrite str_app_empty_l. }
      exists (x :: xs1), b, xs2, p. split_and!; [done..| |done].
      by rewrite mixed_cons, <-str_app_assoc, <-Hp, str_app_empty_r.
    + destruct x as [s|c]; cbn [piece_text] in Hc.
      { by destruct (occurrence_in_plain s u w a v (mixed xs) Hx Hc Hw). }
      apply (occurrence_in_label c xs u w a v) in Hr as [-> ->]; [|done..].
      by exists [], c, xs, u.
  - destruct (IH w Hr) as (xs1 & b & xs2 & p & -> & Hb & -> & ->).
    exists (x :: xs1), b, xs2, p. split_and!; [done..| |done].
    by rewrite Hu, mixed_cons, str_app_assoc.
Qed.

(** The case of a text of labels alone. *)
Corollary occurrence (l : list A) u a v :
  encode l = u +:+ label a +:+ v →
  ∃ l1 b l2 p,
    l = l1 ++ b :: l2 ∧ label b = p +:+ label a ∧ u = encode l1 +:+ p ∧ v = encode l2.
Proof.
  rewrite <-mixed_labels. intros E.
  apply occurrence_mixed in E as (xs1 & b & xs2 & p & Hl & Hb & -> & ->);
    [|by apply Forall_fmap, Forall_true].
  apply fmap_app_inv in Hl as (l1 & l2' & -> & Hl2 & ->).
  symmetry in Hl2. apply fmap_cons_inv in Hl2 as (b' & l2 & [= <-] & -> & ->).
  exists l1, b, l2, p. by rewrite !mixed_labels.
Qed.

End synchronizing.
End occurrences.
