(* ===== verification/Labels.v ===== *)
(** Properties of the label table [Markers.string_marker]
    (markers.rs, lines 36-66): the labels are non-empty, pairwise distinct
    and prefix-free, so the table implements the [LabelTable] contract; the
    table is synchronizing; labels consist of upper-case letters and, for
    one marker, a space; five labels end another label.  [marker_of_string]
    (the inverse lookup) and [markers_of_words] model no code: they serve to
    state what becomes of a label that is split at white space.

    Statements over markers are closed by evaluating their decision
    procedure over the 27 variants ([finite_decide]). *)

From S2P Require Import Prelude Markers LabelTable Occurrences.

(** ** Definitions *)

(** The inverse lookup: the marker whose label is [s], if there is one. *)
Definition marker_of_string (s : string) : option Marker :=
  snd <$> list_find (λ m, string_marker m = s) (enum Marker).

(** The pairs of distinct markers of which the first label occurs inside the
    second. *)
Definition nested_labels : list (Marker * Marker) :=
  [ (Attachment, ImageAttachment); (ClassName, SimpleClassName);
    (FormattedLogging, UnformattedLog);
    (FormattedTraceback, UnformattedTraceback);
    (MethodOrVariableName, SimpleMethodOrVariableName) ].

(** The words of a text that are labels, each replaced by its marker. *)
Definition markers_of_words (s : string) : list (option Marker) :=
  marker_of_string <$> String.words s.

(** ** The laws of the contract *)

Lemma string_marker_nonempty m : string_marker m ≠ "".
Proof. by destruct m. Qed.

Lemma string_marker_prefix m1 m2 :
  string_marker m1 `str_prefix_of` string_marker m2 → m1 = m2.
Proof. revert m1 m2. finite_decide. Qed.

(** [string_marker] implements the contract of a label table. *)
#[export] Instance marker_label_table : LabelTable Marker :=
  {| label := string_marker;
     label_nonempty := string_marker_nonempty;
     label_prefix_free := string_marker_prefix |}.

#[export] Instance string_marker_Inj : Inj (=) (=) string_marker.
Proof. intros m1 m2 E. apply string_marker_prefix. by rewrite E. Qed.

(** Every label begins with an upper-case letter. *)
Lemma string_marker_head_upper m :
  ∃ c s, string_marker m = String c s ∧ is_upper c = true.
Proof. destruct m; by eexists _, _. Qed.

Lemma string_marker_infix_iff m1 m2 :
  string_marker m1 `str_infix_of` string_marker m2 ↔ m1 = m2 ∨ (m1, m2) ∈ nested_labels.
Proof. revert m1 m2. finite_decide. Qed.

(** A label that properly ends another label is one of the nested pairs. *)
Lemma string_marker_nested m1 m2 p :
  p ≠ "" → string_marker m2 = p +:+ string_marker m1 → (m1, m2) ∈ nested_labels.
Proof.
  intros Hp E.
  destruct (proj1 (string_marker_infix_iff m1 m2)) as [->|?]; [|by apply eq_sym, str_app_id_l in E|done].
  apply str_infix_iff. exists p, "". by rewrite str_app_empty_r.
Qed.

(** The table is synchronizing when the plain characters are those that are
    no upper-case letters: checked on the first character and on every
    proper end of every label. *)
Lemma markers_synchronizing : synchronizing (A:=Marker) not_upper.
Proof. finite_decide. Qed.

(** ** The inverse lookup *)

Lemma marker_of_string_Some s m : marker_of_string s = Some m ↔ string_marker m = s.
Proof.
  unfold marker_of_string. rewrite fmap_Some. split.
  - intros ([i m'] & Hf & ->). by apply list_find_Some in Hf as (_ & ? & _).
  - intros Hm.
    destruct (list_find_elem_of (λ m, string_marker m = s) (enum Marker) m)
      as [[i m'] Hf]; [apply elem_of_enum|done|].
    exists (i, m'). split; [done|]. apply list_find_Some in Hf as (_ & Hm' & _).
    cbn. apply (inj string_marker). congruence.
Qed.

Lemma marker_of_string_None s : marker_of_string s = None ↔ ∀ m, string_marker m ≠ s.
Proof.
  rewrite eq_None_not_Some. unfold is_Some. setoid_rewrite marker_of_string_Some.
  split; [intros Hs m Hm; apply Hs; by exists m|intros Hs [m Hm]; by apply (Hs m)].
Qed.

(** ** Theorems *)

(** C1: distinct markers have distinct labels. *)
Theorem string_marker_inj m1 m2 : string_marker m1 = string_marker m2 → m1 = m2.
Proof. apply (inj string_marker). Qed.

Lemma string_marker_inj_witness : UnformattedTraceback = UnformattedTraceback.
Proof. by apply (string_marker_inj UnformattedTraceback UnformattedTraceback). Defined.

(** C2: no label is a prefix of another label: a label starts the label of a
    marker only if it is the label of that marker. *)
Theorem string_marker_prefix_free m1 m2 :
  string_marker m1 `str_prefix_of` string_marker m2 ↔ m1 = m2.
Proof. split; [apply string_marker_prefix|by intros ->]. Qed.

(** C3: every label has between 4 and 26 characters; in particular no label
    is empty. *)
Theorem string_marker_length m : 4 ≤ String.length (string_marker m) ≤ 26.
Proof. destruct m; cbn; lia. Qed.

(** The bounds are attained. *)
Lemma string_marker_length_tight :
  String.length (string_marker Date) = 4 ∧
  String.length (string_marker SimpleMethodOrVariableName) = 26.
Proof. done. Qed.

(** C8: every character of every label is an upper-case ASCII letter or a
    space. *)
Theorem string_marker_charset m : str_forallb is_label_char (string_marker m) = true.
Proof. by destruct m. Qed.

(** C9: the label of [IPAddress] is the only one that contains a space. *)
Theorem string_marker_space m : space ∈ chars (string_marker m) ↔ m = IPAddress.
Proof. revert m. finite_decide. Qed.

(** C6: a label occurs inside the label of another marker exactly for the
    five pairs of [nested_labels]. *)
Theorem string_marker_infix m1 m2 :
  string_marker m1 `str_infix_of` string_marker m2 ↔ m1 = m2 ∨ (m1, m2) ∈ nested_labels.
Proof. apply string_marker_infix_iff. Qed.

(** Where a label occurs inside another one, it ends it. *)
Lemma nested_labels_suffix m1 m2 :
  (m1, m2) ∈ nested_labels → string_marker m1 `str_suffix_of` string_marker m2.
Proof. revert m1 m2. finite_decide. Qed.

(** The labels of [Log] and [Traceback] occur in no other label, which they
    would without their doubled first letters. *)
Lemma doubled_letters :
  (∀ m, string_marker Log `str_infix_of` string_marker m → m = Log) ∧
  (∀ m, string_marker Traceback `str_infix_of` string_marker m → m = Traceback) ∧
  strip_prefix "LL" (string_marker Log) = Some "LOG" ∧
  "LOG" `str_infix_of` string_marker FormattedLogging ∧
  strip_prefix "TT" (string_marker Traceback) = Some "TRACEBACK" ∧
  "TRACEBACK" `str_infix_of` string_marker FormattedTraceback.
Proof. finite_decide. Qed.

(** C10: split at white space, a label is one word, which is looked up as
    its marker; except the label of [IPAddress], which falls into two words
    neither of which is a label. *)
Theorem markers_of_words_string_marker m :
  markers_of_words (string_marker m) = if decide (m = IPAddress) then [None; None] else [Some m].
Proof. by destruct m. Qed.

(** C11: no label occurs in a lower-cased text, so a label written into such
    a text is told apart from everything that was there before. *)
Theorem string_marker_not_in_lower m s : ¬ string_marker m `str_infix_of` str_lower s.
Proof.
  intros Hin%str_infix_lower_inv. destruct (string_marker_head_upper m) as (c & r & E & Hc).
  rewrite E in Hin. apply Forall_cons in Hin as [Hc' _]. congruence.
Qed.

(** ** Examples *)

(** The labels the specification quotes, with their irregular spellings. *)
Example quoted_labels :
  string_marker FilePath = "FILEPATH" ∧ string_marker WebLink = "WEBLINK" ∧
  string_marker IPAddress = "IP ADDRESS" ∧ string_marker Log = "LLLOG" ∧
  string_marker Traceback = "TTTRACEBACK".
Proof. done. Qed.

Example marker_of_string_ex :
  marker_of_string "IP ADDRESS" = Some IPAddress ∧ marker_of_string "IPADDRESS" = None ∧
  marker_of_string "LOG" = None ∧ marker_of_string "weblink" = None.
Proof. by vm_compute. Qed.
