(* ===== verification/Cleaning.v ===== *)
(** The reference consumer of [LabelTable] at the marker table.  [render]
    writes the labels of [Markers.string_marker] one after the other and
    [split_labels] splits such a text back into its markers, in one way
    only.  [cleaned] is a text made of pieces of original text without
    upper-case letters and of labels; a label is found in it only where a
    label was written.  [render], [split_labels] and [cleaned] model no
    source code; they state what the labels of markers.rs (lines 36-66) give
    to the code that puts labels into text or searches text for them. *)

From S2P Require Import Prelude Markers LabelTable Occurrences Labels.

(** ** Definitions *)

(** The labels of [ms], one after the other. *)
Definition render (ms : list Marker) : string := concat_str (string_marker <$> ms).

(** A cleaned text: pieces of the original text, and between them the
    labels of the markers that were written in place of what was removed. *)
Definition cleaned (items : list (string + Marker)) : string :=
  concat_str ((λ x, match x with inl s => s | inr m => string_marker m end) <$> items).

(** A piece of original text has no upper-case letter. *)
Definition original_piece (x : string + Marker) : Prop :=
  match x with inl s => str_forallb not_upper s = true | inr _ => True end.

(** The markers whose labels, one after the other, are [s]. *)
Definition split_labels (s : string) : option (list Marker) := decode s.

(** ** Lemmas *)

Lemma render_encode ms : render ms = encode ms.
Proof. done. Qed.

Lemma render_app ms1 ms2 : render (ms1 ++ ms2) = render ms1 +:+ render ms2.
Proof. exact (encode_app ms1 ms2). Qed.

Lemma cleaned_cons x items :
  cleaned (x :: items) = match x with inl s => s | inr m => string_marker m end +:+ cleaned items.
Proof. done. Qed.

Lemma cleaned_app items1 items2 : cleaned (items1 ++ items2) = cleaned items1 +:+ cleaned items2.
Proof. unfold cleaned. by rewrite fmap_app, concat_str_app. Qed.

(** A text of labels is a cleaned text of which nothing original is left. *)
Lemma cleaned_labels ms : cleaned (inr <$> ms) = render ms.
Proof. unfold cleaned, render. by rewrite <-list_fmap_compose. Qed.

(** A lower-cased text is a piece of original text. *)
Lemma original_piece_lower s : original_piece (inl (str_lower s)).
Proof. apply str_lower_not_upper. Qed.

Lemma split_labels_Some s ms : split_labels s = Some ms ↔ s = render ms.
Proof. exact (decode_Some s ms). Qed.

(** ** Theorems *)

(** C4: splitting the labels of a list of markers, written one after the
    other, gives the list back. *)
Theorem split_labels_render ms : split_labels (render ms) = Some ms.
Proof. exact (decode_encode ms). Qed.

(** C5: a text is the concatenation of the labels of at most one list of
    markers. *)
Theorem render_inj ms1 ms2 : render ms1 = render ms2 → ms1 = ms2.
Proof. exact (encode_inj ms1 ms2). Qed.

Lemma render_inj_witness : [Log; IPAddress] = [Log; IPAddress].
Proof. by apply (render_inj [Log; IPAddress] [Log; IPAddress]). Defined.

(** C7: in a cleaned text, the label of a marker is found only where a
    label that was written ends: it is that label, or that label is one of
    the five that end with it.  No occurrence begins in the original text,
    straddles two labels or runs from a label into the original text. *)
Theorem label_in_cleaned items u m v :
  Forall original_piece items →
  cleaned items = u +:+ string_marker m +:+ v →
  ∃ items1 m' items2, items = items1 ++ inr m' :: items2 ∧ v = cleaned items2 ∧
    (m' = m ∧ u = cleaned items1 ∨
     (m, m') ∈ nested_labels ∧
     u +:+ string_marker m = cleaned items1 +:+ string_marker m').
Proof.
  intros Hitems E.
  destruct (occurrence_mixed not_upper markers_synchronizing items u m v Hitems E)
    as (items1 & m' & items2 & p & -> & Hp & -> & ->).
  change (string_marker m' = p +:+ string_marker m) in Hp.
  exists items1, m', items2. split_and!; [done..|].
  destruct (decide (p = "")) as [->|Hne].
  - left. split; [by apply (inj string_marker)|apply str_app_empty_r].
  - right. split; [by eapply string_marker_nested|].
    by rewrite Hp, <-str_app_assoc.
Qed.

Lemma label_in_cleaned_witness :
  ∃ items1 m' items2,
    [inl "see "; inr ImageAttachment; inl " in 10.0.0.1"] = items1 ++ inr m' :: items2 ∧
    " in 10.0.0.1" = cleaned items2 ∧
    (m' = Attachment ∧ "see IMAGE" = cleaned items1 ∨
     (Attachment, m') ∈ nested_labels ∧
     "see IMAGE" +:+ string_marker Attachment = cleaned items1 +:+ string_marker m').
Proof.
  apply (label_in_cleaned [inl "see "; inr ImageAttachment; inl " in 10.0.0.1"]
           "see IMAGE" Attachment " in 10.0.0.1"); [by repeat constructor|reflexivity].
Defined.

(** Searching a cleaned text for the label of [m] succeeds exactly when [m]
    or a marker whose label ends with that of [m] was written. *)
Lemma cleaned_contains items m :
  Forall original_piece items →
  string_marker m `str_infix_of` cleaned items ↔
  ∃ m', inr m' ∈ items ∧ (m' = m ∨ (m, m') ∈ nested_labels).
Proof.
  intros Hitems. rewrite str_infix_iff. split.
  - intros (u & v & E).
    destruct (occurrence_mixed not_upper markers_synchronizing items u m v Hitems E)
      as (items1 & m' & items2 & p & -> & Hp & _).
    exists m'. split; [apply elem_of_app; right; left|].
    destruct (decide (p = "")) as [->|Hne].
    + left. by apply (inj string_marker).
    + right. by eapply string_marker_nested.
  - intros (m' & (items1 & items2 & ->)%list_elem_of_split & Hm').
    assert (string_marker m `str_infix_of` string_marker m') as (u & v & E)%str_infix_iff
      by (apply string_marker_infix_iff; destruct Hm' as [->|?]; auto).
    exists (cleaned items1 +:+ u), (v +:+ cleaned items2).
    rewrite cleaned_app, cleaned_cons. cbn. by rewrite E, !str_app_assoc.
Qed.

(** ** Examples *)

(** A text in which [IMAGEATTACHMENT] was written is found by a search for
    [ATTACHMENT], and by no search for a label that was not written. *)
Example cleaned_ex :
  let t := cleaned [inl "see "; inr ImageAttachment; inl " in "; inr IPAddress] in
  t = "see IMAGEATTACHMENT in IP ADDRESS" ∧
  infixb (chars (string_marker Attachment)) (chars t) = true ∧
  infixb (chars (string_marker Date)) (chars t) = false.
Proof. by vm_compute. Qed.

Example split_labels_ex1 :
  split_labels "LLLOGIP ADDRESSIMAGEATTACHMENT" = Some [Log; IPAddress; ImageAttachment].
Proof. by vm_compute. Qed.

(** The plain words are no labels. *)
Example split_labels_ex2 : split_labels "LOG" = None ∧ split_labels "TRACEBACK" = None.
Proof. by vm_compute. Qed.

